(** * Secret_code_generator.py: the Caesar cipher [caesar_cipher]

    A shallow embedding of [caesar_cipher] from
    [src/Secret_code_generator.py] and the properties of it that the
    specification states, followed by the interactive functions of the
    file ([get_valid_shift], [encode_message], [decode_message], [main])
    over a console of input lines and written text.

    Python values are modelled as follows.
    - An [int] is a [Z]; Python's [%] with the positive divisor 26 is
      [Z.modulo] (the result takes the sign of the divisor).
    - A [str] is the list of its Unicode code points; a one-character
      string, as produced by iterating over a [str], is a single code point.
    - [str.isalpha], [str.isupper], [str.lower] and [str.upper] consult the
      interpreter's Unicode character database.  The ASCII rows of that
      database are written out below; the rows above U+007F are a parameter
      ([UnicodeData]), with one instance, [latin1], that tabulates
      U+0080..U+00FF.
    - Indexing a [str] can raise [IndexError]; the embedding keeps that
      failure explicit in a small error monad. *)

From Stdlib Require Import ZArith String Ascii List Bool Lia.
Import ListNotations.
Local Open Scope Z_scope.

(** ** Python strings *)

Definition char := Z.
Definition str := list char.

(** The code points of an ASCII literal. *)
Definition str_of (s : string) : str :=
  map (fun a => Z.of_N (N_of_ascii a)) (list_ascii_of_string s).

Fixpoint str_eqb (s t : str) : bool :=
  match s, t with
  | [], [] => true
  | a :: s', b :: t' => (a =? b) && str_eqb s' t'
  | _, _ => false
  end.

(** ** Exceptions *)

Inductive exn := IndexError.

Inductive result (A : Type) :=
| OK (a : A)
| Raise (e : exn).
Arguments OK {A} a.
Arguments Raise {A} e.

Definition bind {A B} (m : result A) (k : A -> result B) : result B :=
  match m with
  | OK a => k a
  | Raise e => Raise e
  end.

Notation "x <- m ;; k" := (bind m (fun x => k))
  (at level 61, m at next level, right associativity).

(** ** [str.find] and [str.__getitem__] *)

Fixpoint startswith (s sub : str) : bool :=
  match sub, s with
  | [], _ => true
  | b :: sub', a :: s' => (a =? b) && startswith s' sub'
  | _ :: _, [] => false
  end.

(** [find_from s sub i]: the lowest index of an occurrence of [sub] in [s],
    counted from [i] at the head of [s]; [-1] when there is none. *)
Fixpoint find_from (s sub : str) (i : Z) : Z :=
  if startswith s sub then i
  else match s with
       | [] => -1
       | _ :: s' => find_from s' sub (i + 1)
       end.

Definition find (s sub : str) : Z := find_from s sub 0.

(** [s[i]]: a negative index counts from the end, an index outside
    [-len(s) .. len(s)-1] raises [IndexError]. *)
Definition getitem (s : str) (i : Z) : result char :=
  let n := Z.of_nat (length s) in
  let j := if i <? 0 then i + n else i in
  if (0 <=? j) && (j <? n)
  then match nth_error s (Z.to_nat j) with
       | Some c => OK c
       | None => Raise IndexError
       end
  else Raise IndexError.

(** ** The Unicode character database *)

Definition in_range (lo hi c : Z) : bool := (lo <=? c) && (c <=? hi).

Definition is_ascii (c : char) : bool := in_range 0 127 c.

(** The rows of the database above U+007F.  The two case properties
    Uppercase and Lowercase are disjoint. *)
Class UnicodeData : Type := {
  ext_isalpha : char -> bool;
  ext_isupper : char -> bool;
  ext_islower : char -> bool;
  ext_lower : char -> str;
  ext_upper : char -> str;
  ext_upper_not_lower : forall c, ext_isupper c = true -> ext_islower c = false
}.

Section CharacterMethods.
Context {U : UnicodeData}.

Definition isalpha (c : char) : bool :=
  if is_ascii c then in_range 65 90 c || in_range 97 122 c
  else ext_isalpha c.

Definition isupper (c : char) : bool :=
  if is_ascii c then in_range 65 90 c else ext_isupper c.

Definition islower (c : char) : bool :=
  if is_ascii c then in_range 97 122 c else ext_islower c.

Definition lower (c : char) : str :=
  if is_ascii c then (if in_range 65 90 c then [c + 32] else [c])
  else ext_lower c.

Definition upper (c : char) : str :=
  if is_ascii c then (if in_range 97 122 c then [c - 32] else [c])
  else ext_upper c.
End CharacterMethods.

(** U+0080..U+00FF, from UnicodeData.txt, SpecialCasing.txt and
    DerivedCoreProperties.txt.  Code points above U+00FF are not tabulated
    here and are given the properties of an unassigned code point; the
    examples that use this instance stay below U+0100. *)
Definition latin1_isalpha (c : char) : bool :=
  (c =? 170) || (c =? 181) || (c =? 186)
  || in_range 192 214 c || in_range 216 246 c || in_range 248 255 c.

Definition latin1_isupper (c : char) : bool :=
  in_range 192 214 c || in_range 216 222 c.

Definition latin1_islower (c : char) : bool :=
  (c =? 170) || (c =? 181) || (c =? 186)
  || in_range 223 246 c || in_range 248 255 c.

Definition latin1_lower (c : char) : str :=
  if latin1_isupper c then [c + 32] else [c].

Definition latin1_upper (c : char) : str :=
  if in_range 224 246 c || in_range 248 254 c then [c - 32]
  else if c =? 255 then [376]
  else if c =? 223 then [83; 83]
  else if c =? 181 then [924]
  else [c].

#[export, refine] Instance latin1 : UnicodeData := {|
  ext_isalpha := latin1_isalpha;
  ext_isupper := latin1_isupper;
  ext_islower := latin1_islower;
  ext_lower := latin1_lower;
  ext_upper := latin1_upper;
  ext_upper_not_lower := _
|}.
Proof.
  intros c. unfold latin1_isupper, latin1_islower, in_range.
  repeat match goal with
         | |- context [?a <=? ?b] => destruct (Z.leb_spec a b)
         | |- context [?a =? ?b] => destruct (Z.eqb_spec a b)
         end; cbn [andb orb]; intros ?; try reflexivity; try discriminate; lia.
Defined.

(** ** [caesar_cipher] *)

(** [string.ascii_lowercase] *)
Definition ascii_lowercase : str := str_of "abcdefghijklmnopqrstuvwxyz".

Definition encode : str := str_of "encode".
Definition decode : str := str_of "decode".

Section CaesarCipher.
Context {U : UnicodeData}.

(** [shift %= 26], then [shift *= -1] when [direction == 'decode']. *)
Definition effective_shift (shift : Z) (direction : str) : Z :=
  let shift := shift mod 26 in
  if str_eqb direction decode then shift * -1 else shift.

(** The [for char in text] loop, threading [result_text]. *)
Fixpoint for_char (alphabet : str) (shift : Z) (text result_text : str)
  : result str :=
  match text with
  | [] => OK result_text
  | char :: text' =>
      if isalpha char then
        let original_index := find alphabet (lower char) in
        let new_index := (original_index + shift) mod 26 in
        new_char <- getitem alphabet new_index ;;
        if isupper char
        then for_char alphabet shift text' (result_text ++ upper new_char)
        else for_char alphabet shift text' (result_text ++ [new_char])
      else
        for_char alphabet shift text' (result_text ++ [char])
  end.

Definition caesar_cipher (text : str) (shift : Z) (direction : str)
  : result str :=
  let alphabet := ascii_lowercase in
  let result_text := [] in
  let shift := effective_shift shift direction in
  for_char alphabet shift text result_text.
End CaesarCipher.

(** ** The loop, character by character

    Derived notions used to state what the loop computes; they are not
    functions of the source. *)

Section Image.
Context {U : UnicodeData}.

(** The index computed for an alphabetic character [c]. *)
Definition new_index_of (shift : Z) (c : char) : Z :=
  (find ascii_lowercase (lower c) + shift) mod 26.

(** The character appended to [result_text] for [c]. *)
Definition image (shift : Z) (c : char) : char :=
  if isalpha c then
    if isupper c then 65 + new_index_of shift c
    else 97 + new_index_of shift c
  else c.

(** Every letter of [text] is one of the 52 ASCII letters. *)
Definition ascii_letters (text : str) : Prop :=
  forall c, In c text -> isalpha c = true -> is_ascii c = true.
End Image.

Section Checks.
Context {U : UnicodeData}.

(** The decidable form of [ascii_letters]. *)
Definition ascii_lettersb (text : str) : bool :=
  forallb (fun c => negb (isalpha c) || is_ascii c) text.
End Checks.


(** ** The console: [input], [print], [int] and [try]/[except]

    The interactive functions of the file read lines and write text.  The
    console is the list of lines still to be read and the text written so
    far.  [input] at the end of the input raises [EOFError]; [int] on a
    string it does not accept raises [ValueError].  A [while True] loop is
    a recursion on a fuel counter; running out of it is the outcome
    [Starved], which is not a behaviour of the program. *)

Inductive error :=
| EOFError
| ValueError
| Uncaught (e : exn).

Record console := Console { stdin : list str; stdout : str }.

Inductive outcome (A : Type) :=
| Returns (a : A)
| Raises (e : error)
| Starved.
Arguments Returns {A} a.
Arguments Raises {A} e.
Arguments Starved {A}.

Definition io (A : Type) : Type := console -> outcome A * console.

Definition ret {A} (a : A) : io A := fun w => (Returns a, w).

Definition raise {A} (e : error) : io A := fun w => (Raises e, w).

Definition starve {A} : io A := fun w => (Starved, w).

Definition io_bind {A B} (m : io A) (k : A -> io B) : io B :=
  fun w =>
    match m w with
    | (Returns a, w') => k a w'
    | (Raises e, w') => (Raises e, w')
    | (Starved, w') => (Starved, w')
    end.

Notation "x <~ m ;; k" := (io_bind m (fun x => k))
  (at level 61, m at next level, right associativity).
Notation "m ;;; k" := (io_bind m (fun _ => k))
  (at level 61, right associativity).

(** [try: body except ValueError: handler] *)
Definition try_except_ValueError {A} (body handler : io A) : io A :=
  fun w =>
    match body w with
    | (Raises ValueError, w') => handler w'
    | r => r
    end.

(** The result of a pure call that may raise. *)
Definition lift {A} (r : result A) : io A :=
  match r with
  | OK a => ret a
  | Raise e => raise (Uncaught e)
  end.

Definition nl : str := [10].

(** [print(s)] writes [s] and a newline. *)
Definition print (s : str) : io unit :=
  fun w => (Returns tt, Console (stdin w) (stdout w ++ s ++ nl)).

(** [input(prompt)] writes the prompt and reads one line, without its
    newline. *)
Definition input (prompt : str) : io str :=
  fun w =>
    match stdin w with
    | [] => (Raises EOFError, Console [] (stdout w ++ prompt))
    | line :: rest => (Returns line, Console rest (stdout w ++ prompt))
    end.

(** The two built-ins that work on whole strings: [int(s)], with [None]
    for [ValueError], and [s.lower()]. *)
Class Builtins : Type := {
  int_of_str : str -> option Z;
  lower_of_str : str -> str
}.

Section Int.
Context {B : Builtins}.

Definition int (s : str) : io Z :=
  match int_of_str s with
  | Some n => ret n
  | None => raise ValueError
  end.
End Int.

(** The built-ins on strings of code points below U+0100.  [int] strips
    white space, takes an optional sign and then decimal digits, single
    underscores allowed between digits, at most 4300 digits.  Strings with
    a code point above U+00FF are not covered: [int] is made to reject
    them and [lower] to follow [latin1]. *)
Definition int_space (c : char) : bool :=
  in_range 9 13 c || (c =? 32) || (c =? 133) || (c =? 160).

Fixpoint lstrip (s : str) : str :=
  match s with
  | [] => []
  | c :: s' => if int_space c then lstrip s' else s
  end.

Definition strip (s : str) : str := rev (lstrip (rev (lstrip s))).

Fixpoint digits (s : str) (acc : Z) (count : nat) (after_digit : bool)
  : option (Z * nat) :=
  match s with
  | [] => if after_digit then Some (acc, count) else None
  | c :: s' =>
      if in_range 48 57 c then digits s' (10 * acc + (c - 48)) (S count) true
      else if (c =? 95) && after_digit then digits s' acc count false
      else None
  end.

Definition unsigned (s : str) : option Z :=
  match digits s 0 0%nat false with
  | Some (n, count) => if (count <=? 4300)%nat then Some n else None
  | None => None
  end.

Definition latin1_int (s : str) : option Z :=
  match strip s with
  | [] => None
  | c :: s' =>
      if c =? 45 then option_map Z.opp (unsigned s')
      else if c =? 43 then unsigned s'
      else unsigned (c :: s')
  end.

#[export] Instance latin1_builtins : Builtins := {|
  int_of_str := latin1_int;
  lower_of_str := flat_map (lower (U := latin1))
|}.

(** ** The interactive functions *)

Definition shift_prompt : str := str_of "Please enter the shift number: ".

Definition shift_invalid : str :=
  str_of "Invalid input. Please enter a whole number for the shift.".

Definition encode_banner : str := nl ++ str_of "--- Encode a Message ---".
Definition encode_prompt : str := str_of "Type your message to encode:" ++ nl.
Definition encode_result : str := nl ++ str_of "Here is your encoded message:".

Definition decode_banner : str := nl ++ str_of "--- Decode a Message ---".
Definition decode_prompt : str := str_of "Type your message to decode:" ++ nl.
Definition decode_result : str := nl ++ str_of "Here is your decoded message:".

Definition arrow : str := str_of "-> ".

Definition menu_banner : str := nl ++ str_of "--- Main Menu ---".

Definition menu_prompt : str :=
  str_of "Type 'encode' to encrypt, 'decode' to decrypt, or 'exit' to quit:"
  ++ nl.

Definition goodbye : str :=
  str_of "Thank you for using the Secret Code Generator. Goodbye!".

Definition invalid_choice : str :=
  str_of "Invalid choice. Please type 'encode', 'decode', or 'exit'.".

Section Interactive.
Context {U : UnicodeData} {B : Builtins}.

Fixpoint get_valid_shift (fuel : nat) : io Z :=
  match fuel with
  | O => starve
  | S fuel' =>
      try_except_ValueError
        (line <~ input shift_prompt ;;
         shift <~ int line ;;
         ret shift)
        (print shift_invalid ;;;
         get_valid_shift fuel')
  end.

Definition encode_message (fuel : nat) : io unit :=
  print encode_banner ;;;
  message <~ input encode_prompt ;;
  shift_key <~ get_valid_shift fuel ;;
  encoded <~ lift (caesar_cipher message shift_key encode) ;;
  print encode_result ;;;
  print (arrow ++ encoded).

Definition decode_message (fuel : nat) : io unit :=
  print decode_banner ;;;
  message <~ input decode_prompt ;;
  shift_key <~ get_valid_shift fuel ;;
  decoded <~ lift (caesar_cipher message shift_key decode) ;;
  print decode_result ;;;
  print (arrow ++ decoded).

(** The [while True] loop of [main]. *)
Fixpoint main_loop (fuel : nat) : io unit :=
  match fuel with
  | O => starve
  | S fuel' =>
      print menu_banner ;;;
      line <~ input menu_prompt ;;
      let choice := lower_of_str line in
      if str_eqb choice (str_of "encode") then
        encode_message fuel' ;;; main_loop fuel'
      else if str_eqb choice (str_of "decode") then
        decode_message fuel' ;;; main_loop fuel'
      else if str_eqb choice (str_of "exit") then
        print goodbye
      else
        print invalid_choice ;;; main_loop fuel'
  end.

Definition main (fuel : nat) : io unit :=
  print (str_of "----------------------------") ;;;
  print (str_of "  SECRET CODE GENERATOR   ") ;;;
  print (str_of "----------------------------") ;;;
  main_loop fuel.

(** *** What a session writes

    Derived notions for stating the transcripts; they are not functions of
    the source. *)

(** The text written for shift lines that [int] rejected. *)
Definition retries (bad : list str) : str :=
  flat_map (fun _ => shift_prompt ++ shift_invalid ++ nl) bad.

(** The text written by [encode_message] up to the result, when the shift
    lines [bad] are rejected and the next one is accepted. *)
Definition encode_transcript (bad : list str) : str :=
  encode_banner ++ nl ++ encode_prompt ++ retries bad ++ shift_prompt
  ++ encode_result ++ nl.

Definition decode_transcript (bad : list str) : str :=
  decode_banner ++ nl ++ decode_prompt ++ retries bad ++ shift_prompt
  ++ decode_result ++ nl.

(** The three lines written when [main] starts. *)
Definition title : str :=
  str_of "----------------------------" ++ nl
  ++ str_of "  SECRET CODE GENERATOR   " ++ nl
  ++ str_of "----------------------------" ++ nl.

(** The text written at the head of each turn of the menu loop. *)
Definition menu : str := menu_banner ++ nl ++ menu_prompt.

(** A menu line that is none of the three commands. *)
Definition unknown_choice (line : str) : Prop :=
  lower_of_str line <> str_of "encode"
  /\ lower_of_str line <> str_of "decode"
  /\ lower_of_str line <> str_of "exit".

(** How a run of [main] can end: it returns after writing the farewell,
    or it raises [EOFError] with the input used up. *)
Definition ends_well (r : outcome unit * console) : Prop :=
  (exists w', r = (Returns tt, w')
              /\ exists pre, stdout w' = pre ++ goodbye ++ nl)
  \/ (exists w', r = (Raises EOFError, w') /\ stdin w' = []).

(** The text written for menu lines that were not commands. *)
Definition refusals (junk : list str) : str :=
  flat_map (fun _ => menu ++ invalid_choice ++ nl) junk.
End Interactive.

(** ** Facts about the Python primitives *)

Lemma str_eqb_eq (s t : str) : str_eqb s t = true <-> s = t.
Proof.
  revert t; induction s as [|a s IH]; intros [|b t]; simpl;
    try (split; [discriminate | congruence]); try tauto.
  rewrite andb_true_iff, Z.eqb_eq, IH. split.
  - intros [-> ->]; reflexivity.
  - intros E; injection E; auto.
Qed.

Lemma str_eqb_neq (s t : str) : s <> t -> str_eqb s t = false.
Proof.
  intros N. destruct (str_eqb s t) eqn:E; [|reflexivity].
  apply str_eqb_eq in E. contradiction.
Qed.

Lemma in_range_true (lo hi c : Z) : in_range lo hi c = true <-> lo <= c <= hi.
Proof. unfold in_range. rewrite andb_true_iff, !Z.leb_le. tauto. Qed.

Lemma in_range_false (lo hi c : Z) :
  in_range lo hi c = false <-> c < lo \/ hi < c.
Proof. unfold in_range. rewrite andb_false_iff, !Z.leb_gt. tauto. Qed.

Lemma in_range_intro (lo hi c : Z) : lo <= c <= hi -> in_range lo hi c = true.
Proof. apply in_range_true. Qed.

Lemma in_range_out (lo hi c : Z) : c < lo \/ hi < c -> in_range lo hi c = false.
Proof. apply in_range_false. Qed.

(** The alphabet is the run of code points U+0061..U+007A. *)
Lemma ascii_lowercase_seq :
  ascii_lowercase = map (fun n => 97 + Z.of_nat n) (seq 0 26).
Proof. reflexivity. Qed.

Lemma ascii_lowercase_nth (n : nat) :
  (n < 26)%nat -> nth_error ascii_lowercase n = Some (97 + Z.of_nat n).
Proof.
  intros H. rewrite ascii_lowercase_seq, nth_error_map, nth_error_seq.
  destruct (Nat.ltb_spec n 26) as [_|G]; [reflexivity | lia].
Qed.

Lemma getitem_ascii_lowercase (i : Z) :
  0 <= i < 26 -> getitem ascii_lowercase i = OK (97 + i).
Proof.
  intros H. unfold getitem.
  change (Z.of_nat (length ascii_lowercase)) with 26.
  destruct (Z.ltb_spec i 0) as [G|_]; [lia|].
  destruct (Z.leb_spec 0 i) as [_|G]; [|lia].
  destruct (Z.ltb_spec i 26) as [_|G]; [|lia]. cbn [andb].
  rewrite ascii_lowercase_nth by lia.
  do 2 f_equal. lia.
Qed.

Lemma find_ascii_lowercase (c : char) :
  97 <= c <= 122 -> find ascii_lowercase [c] = c - 97.
Proof.
  intros H.
  replace c with (97 + Z.of_nat (Z.to_nat (c - 97))) by lia.
  assert (B : (Z.to_nat (c - 97) < 26)%nat) by lia.
  revert B. generalize (Z.to_nat (c - 97)) as n. intros n B.
  do 26 (destruct n as [|n]; [vm_compute; reflexivity|]).
  lia.
Qed.

Section CharacterFacts.
Context {U : UnicodeData}.

Lemma upper_lowercase_letter (c : char) :
  97 <= c <= 122 -> upper c = [c - 32].
Proof.
  intros H. unfold upper, is_ascii.
  rewrite (in_range_intro 0 127), (in_range_intro 97 122) by lia.
  reflexivity.
Qed.

Lemma isupper_islower (c : char) : isupper c = true -> islower c = false.
Proof.
  unfold isupper, islower. destruct (is_ascii c).
  - rewrite in_range_true. intros H. apply in_range_out. lia.
  - apply ext_upper_not_lower.
Qed.

Lemma uppercase_letter (c : char) :
  65 <= c <= 90 -> isalpha c = true /\ isupper c = true.
Proof.
  intros H. unfold isalpha, isupper, is_ascii.
  rewrite (in_range_intro 0 127), (in_range_intro 65 90) by lia.
  split; reflexivity.
Qed.

Lemma lowercase_letter (c : char) :
  97 <= c <= 122 -> isalpha c = true /\ islower c = true.
Proof.
  intros H. unfold isalpha, islower, is_ascii.
  rewrite (in_range_intro 0 127), (in_range_intro 97 122) by lia.
  rewrite orb_true_r. split; reflexivity.
Qed.

Lemma isalpha_ascii (c : char) :
  is_ascii c = true ->
  isalpha c = true <-> 65 <= c <= 90 \/ 97 <= c <= 122.
Proof.
  intros A. unfold isalpha. rewrite A, orb_true_iff, !in_range_true.
  tauto.
Qed.
End CharacterFacts.

(** ** What the loop computes *)

Section ImageFacts.
Context {U : UnicodeData}.

Lemma new_index_bounds (shift : Z) (c : char) :
  0 <= new_index_of shift c < 26.
Proof. unfold new_index_of. apply Z.mod_pos_bound. lia. Qed.

Lemma for_char_image (shift : Z) (text result_text : str) :
  for_char ascii_lowercase shift text result_text
  = OK (result_text ++ map (image shift) text).
Proof.
  revert result_text.
  induction text as [|c text IH]; intros acc; cbn [for_char map].
  - rewrite app_nil_r. reflexivity.
  - pose proof (new_index_bounds shift c) as B.
    unfold image at 1. fold (new_index_of shift c).
    destruct (isalpha c).
    + rewrite getitem_ascii_lowercase by exact B. cbn [bind].
      destruct (isupper c); rewrite ?upper_lowercase_letter by lia;
        rewrite IH, <- app_assoc; cbn [app]; do 3 f_equal; lia.
    + rewrite IH, <- app_assoc. reflexivity.
Qed.

Lemma caesar_cipher_image (text : str) (shift : Z) (direction : str) :
  caesar_cipher text shift direction
  = OK (map (image (effective_shift shift direction)) text).
Proof. unfold caesar_cipher. apply for_char_image. Qed.
End ImageFacts.

(** ** The two directions *)

Lemma effective_shift_encode (k : Z) : effective_shift k encode = k mod 26.
Proof. reflexivity. Qed.

Lemma effective_shift_decode (k : Z) :
  effective_shift k decode = (k mod 26) * -1.
Proof. reflexivity. Qed.

Lemma effective_shift_other (k : Z) (direction : str) :
  direction <> decode -> effective_shift k direction = k mod 26.
Proof.
  intros N. unfold effective_shift. rewrite (str_eqb_neq _ _ N). reflexivity.
Qed.

Section Letters.
Context {U : UnicodeData}.

(** The rotation of the 26 ASCII letters, the case the loop is written
    for. *)
Lemma image_ascii_lower (shift : Z) (c : char) :
  97 <= c <= 122 -> image shift c = 97 + (c - 97 + shift) mod 26.
Proof.
  intros H. unfold image, new_index_of, isalpha, isupper, lower, is_ascii.
  rewrite (in_range_intro 0 127), (in_range_intro 97 122) by lia.
  rewrite (in_range_out 65 90) by lia. cbn [orb].
  rewrite find_ascii_lowercase by lia. reflexivity.
Qed.

Lemma image_ascii_upper (shift : Z) (c : char) :
  65 <= c <= 90 -> image shift c = 65 + (c - 65 + shift) mod 26.
Proof.
  intros H. unfold image, new_index_of, isalpha, isupper, lower, is_ascii.
  rewrite (in_range_intro 0 127), (in_range_intro 65 90) by lia.
  cbn [orb].
  rewrite find_ascii_lowercase by lia.
  do 3 f_equal. lia.
Qed.

Lemma image_not_alpha (shift : Z) (c : char) :
  isalpha c = false -> image shift c = c.
Proof. intros H. unfold image. rewrite H. reflexivity. Qed.

(** A letter that [ascii_lowercase] does not contain: [find] answers
    [-1] and the loop goes on with that index. *)
Lemma image_not_in_alphabet (shift : Z) (c : char) :
  isalpha c = true -> find ascii_lowercase (lower c) = -1 ->
  image shift c
  = (if isupper c then 65 else 97) + (shift - 1) mod 26.
Proof.
  intros A F. unfold image, new_index_of. rewrite A, F.
  replace (-1 + shift) with (shift - 1) by lia.
  destruct (isupper c); reflexivity.
Qed.

Lemma image_roundtrip_char (k : Z) (c : char) :
  (isalpha c = true -> is_ascii c = true) ->
  image (effective_shift k decode) (image (effective_shift k encode) c) = c.
Proof.
  intros A. rewrite effective_shift_encode, effective_shift_decode.
  destruct (isalpha c) eqn:E.
  - apply isalpha_ascii in E; [|auto].
    pose proof (Z.mod_pos_bound k 26 ltac:(lia)) as Bk.
    destruct E as [E|E].
    + rewrite (image_ascii_upper _ c E).
      pose proof (Z.mod_pos_bound (c - 65 + k mod 26) 26 ltac:(lia)) as B.
      rewrite image_ascii_upper by lia.
      replace (65 + (c - 65 + k mod 26) mod 26 - 65 + k mod 26 * -1)
        with ((c - 65 + k mod 26) mod 26 - k mod 26) by lia.
      rewrite Zminus_mod_idemp_l.
      replace (c - 65 + k mod 26 - k mod 26) with (c - 65) by lia.
      rewrite Z.mod_small by lia. lia.
    + rewrite (image_ascii_lower _ c E).
      pose proof (Z.mod_pos_bound (c - 97 + k mod 26) 26 ltac:(lia)) as B.
      rewrite image_ascii_lower by lia.
      replace (97 + (c - 97 + k mod 26) mod 26 - 97 + k mod 26 * -1)
        with ((c - 97 + k mod 26) mod 26 - k mod 26) by lia.
      rewrite Zminus_mod_idemp_l.
      replace (c - 97 + k mod 26 - k mod 26) with (c - 97) by lia.
      rewrite Z.mod_small by lia. lia.
  - rewrite !image_not_alpha; auto. rewrite image_not_alpha; auto.
Qed.

(** On texts whose letters are all ASCII, decoding undoes encoding. *)
Lemma caesar_roundtrip_ascii_letters (text : str) (k : Z) :
  ascii_letters text ->
  exists coded,
    caesar_cipher text k encode = OK coded
    /\ caesar_cipher coded k decode = OK text.
Proof.
  intros A. eexists. split; [apply caesar_cipher_image|].
  rewrite caesar_cipher_image, map_map. f_equal.
  rewrite <- (map_id text) at 2. apply map_ext_in.
  intros c I. apply image_roundtrip_char. exact (A c I).
Qed.

(** On such texts a zero shift changes nothing. *)
Lemma caesar_zero_shift_ascii_letters (text : str) :
  ascii_letters text -> caesar_cipher text 0 encode = OK text.
Proof.
  intros A. rewrite caesar_cipher_image. f_equal.
  rewrite <- (map_id text) at 2. apply map_ext_in.
  intros c I. rewrite effective_shift_encode.
  change (0 mod 26) with 0.
  destruct (isalpha c) eqn:E; [|apply image_not_alpha; exact E].
  apply isalpha_ascii in E; [|exact (A c I E)].
  destruct E as [E|E].
  - rewrite image_ascii_upper, Z.add_0_r, Z.mod_small by lia. lia.
  - rewrite image_ascii_lower, Z.add_0_r, Z.mod_small by lia. lia.
Qed.
End Letters.

(** ** The scenarios of the specification *)

Section Scenarios.
Context {U : UnicodeData}.

Example scenario_hello :
  caesar_cipher (str_of "Hello, World!") 3 encode
  = OK (str_of "Khoor, Zruog!").
Proof. vm_compute. reflexivity. Qed.

Example scenario_khoor :
  caesar_cipher (str_of "Khoor, Zruog!") 3 decode
  = OK (str_of "Hello, World!").
Proof. vm_compute. reflexivity. Qed.

Example scenario_abcXYZ :
  caesar_cipher (str_of "abcXYZ") 2 encode = OK (str_of "cdeZAB").
Proof. vm_compute. reflexivity. Qed.

Example scenario_negative_shift :
  caesar_cipher (str_of "abc") (-2) encode = OK (str_of "yza").
Proof. vm_compute. reflexivity. Qed.

Example scenario_empty : caesar_cipher (str_of "") 5 encode = OK (str_of "").
Proof. reflexivity. Qed.

Example scenario_zero_shift :
  caesar_cipher (str_of "abc") 0 encode = OK (str_of "abc").
Proof. vm_compute. reflexivity. Qed.
End Scenarios.

(** ** The claims of the specification *)

(** C1 (round-trip law), evaluated where the code breaks it.  The text "é"
    (U+00E9) is a letter for [str.isalpha] but is not in
    [ascii_lowercase]: encoding it with shift 3 gives "c", and decoding "c"
    with shift 3 gives "z", not "é". *)
Theorem roundtrip_e_acute :
  caesar_cipher (U := latin1) [233] 3 encode = OK [99]
  /\ caesar_cipher (U := latin1) [99] 3 decode = OK [122]
  /\ caesar_cipher (U := latin1) [99] 3 decode <> OK [233].
Proof. repeat split; vm_compute; (reflexivity || discriminate). Qed.

(** C2 (letters outside the Latin alphabet pass through), evaluated where
    the code breaks it.  "é" (U+00E9) is alphabetic, its lowercase form is
    itself, [find] does not locate it in [ascii_lowercase] and answers -1,
    and the loop shifts that index: with shift 3 the output is "c". *)
Theorem e_acute_is_rewritten :
  isalpha (U := latin1) 233 = true
  /\ lower (U := latin1) 233 = [233]
  /\ find ascii_lowercase (lower (U := latin1) 233) = -1
  /\ caesar_cipher (U := latin1) [233] 3 encode = OK [99]
  /\ caesar_cipher (U := latin1) [233] 3 encode <> OK [233].
Proof. repeat split; vm_compute; (reflexivity || discriminate). Qed.

Section Claims.
Context {U : UnicodeData}.

(** C3 (length preservation): for every text, shift and direction the
    call returns a string with as many characters as the input. *)
Theorem length_preserved (T : str) (k : Z) (direction : str) :
  exists r, caesar_cipher T k direction = OK r /\ length r = length T.
Proof.
  eexists. split; [apply caesar_cipher_image|]. apply length_map.
Qed.

(** C4 (non-alphabetic passthrough): a character of the input that is not
    alphabetic is found unchanged at the same position of the output, for
    every shift and direction. *)
Theorem nonalpha_passthrough
  (T : str) (k : Z) (direction : str) (i : nat) (c : char) :
  nth_error T i = Some c -> isalpha c = false ->
  exists r, caesar_cipher T k direction = OK r /\ nth_error r i = Some c.
Proof.
  intros N A. eexists. split; [apply caesar_cipher_image|].
  rewrite nth_error_map, N. cbn [option_map].
  rewrite image_not_alpha by exact A. reflexivity.
Qed.

(** C5 (case preservation): an alphabetic character of the input is
    answered, at the same position, by a letter; that letter is uppercase
    when the input character is uppercase and lowercase when it is
    lowercase, for every shift and direction. *)
Theorem case_preserved
  (T : str) (k : Z) (direction : str) (i : nat) (c : char) :
  nth_error T i = Some c -> isalpha c = true ->
  exists r c',
    caesar_cipher T k direction = OK r
    /\ nth_error r i = Some c'
    /\ isalpha c' = true
    /\ (isupper c = true -> isupper c' = true)
    /\ (islower c = true -> islower c' = true).
Proof.
  intros N A. exists (map (image (effective_shift k direction)) T).
  exists (image (effective_shift k direction) c).
  split; [apply caesar_cipher_image|].
  split; [rewrite nth_error_map, N; reflexivity|].
  set (s := effective_shift k direction).
  pose proof (new_index_bounds s c) as B.
  unfold image. rewrite A.
  destruct (isupper c) eqn:Up.
  - destruct (uppercase_letter (65 + new_index_of s c)) as [A' U']; [lia|].
    repeat split; auto.
    intros L. apply isupper_islower in Up. congruence.
  - destruct (lowercase_letter (97 + new_index_of s c)) as [A' L']; [lia|].
    repeat split; auto. discriminate.
Qed.

(** C7 (shift periodicity): encoding with shift k and with shift k + 26
    give the same result. *)
Theorem shift_periodic (T : str) (k : Z) :
  caesar_cipher T k encode = caesar_cipher T (k + 26) encode.
Proof.
  unfold caesar_cipher. rewrite !effective_shift_encode.
  rewrite <- (Z_mod_plus_full k 1 26). reflexivity.
Qed.

(** C9 (totality): for every text, every integer shift and every direction
    the call returns a string; in particular the lookup
    [alphabet[new_index]] made for a character never raises. *)
Theorem caesar_cipher_total (T : str) (k : Z) (direction : str) :
  (exists r, caesar_cipher T k direction = OK r)
  /\ (forall c shift, exists new_char,
        getitem ascii_lowercase
          ((find ascii_lowercase (lower c) + shift) mod 26) = OK new_char).
Proof.
  split.
  - eexists. apply caesar_cipher_image.
  - intros c shift. eexists. apply getitem_ascii_lowercase.
    apply Z.mod_pos_bound. lia.
Qed.

(** C10 (direction): a direction other than the exact string 'decode'
    gives the result of 'encode', and decoding with shift k is encoding
    with shift -k. *)
Theorem direction_only_decode (T : str) (k : Z) (direction : str) :
  direction <> decode ->
  caesar_cipher T k direction = caesar_cipher T k encode
  /\ caesar_cipher T k decode = caesar_cipher T (- k) encode.
Proof.
  intros N. split.
  - unfold caesar_cipher.
    rewrite (effective_shift_other _ _ N), effective_shift_encode.
    reflexivity.
  - rewrite !caesar_cipher_image. f_equal. apply map_ext. intros c.
    rewrite effective_shift_decode, effective_shift_encode.
    unfold image, new_index_of.
    replace ((find ascii_lowercase (lower c) + k mod 26 * -1) mod 26)
      with ((find ascii_lowercase (lower c) + (- k) mod 26) mod 26).
    + reflexivity.
    + rewrite Zplus_mod_idemp_r.
      replace (find ascii_lowercase (lower c) + k mod 26 * -1)
        with (find ascii_lowercase (lower c) - k mod 26) by lia.
      rewrite Zminus_mod_idemp_r. f_equal; lia.
Qed.
End Claims.

(** C6 (floor modulo): for a negative shift k the shift applied when
    encoding is the floor remainder of k: it lies in [0, 26), differs from
    k by a multiple of 26, and is the truncating remainder [Z.rem k 26]
    (which is never positive for such k) raised by 26 unless that is 0;
    -2 normalizes to 24, and "abc" encoded with shift -2 is "yza". *)
Theorem negative_shift_floor_modulo (k : Z) :
  k < 0 ->
  0 <= effective_shift k encode < 26
  /\ (exists q, k = 26 * q + effective_shift k encode)
  /\ effective_shift k encode
     = Z.rem k 26 + (if Z.rem k 26 =? 0 then 0 else 26)
  /\ effective_shift (-2) encode = 24
  /\ caesar_cipher (U := latin1) (str_of "abc") (-2) encode
     = OK (str_of "yza").
Proof.
  intros Neg. rewrite effective_shift_encode.
  pose proof (Z.mod_pos_bound k 26 ltac:(lia)) as B.
  pose proof (Z.div_mod k 26 ltac:(lia)) as D.
  split; [exact B|]. split; [exists (k / 26); exact D|].
  split; [|split; [reflexivity | vm_compute; reflexivity]].
  pose proof (Z.quot_rem' k 26) as Q.
  pose proof (Z.rem_bound_pos_neg k 26 ltac:(lia) ltac:(lia)) as R.
  destruct (Z.eqb_spec (Z.rem k 26) 0) as [E|E]; lia.
Qed.

(** C8 (zero shift is the identity), evaluated where the code breaks it:
    encoding "é" (U+00E9) with shift 0 gives "z".  The two scenarios named
    by the claim do hold: "abc" with shift 0 is "abc" and the empty text
    with shift 5 is the empty text. *)
Theorem zero_shift_e_acute :
  caesar_cipher (U := latin1) [233] 0 encode = OK [122]
  /\ caesar_cipher (U := latin1) [233] 0 encode <> OK [233]
  /\ caesar_cipher (U := latin1) (str_of "abc") 0 encode = OK (str_of "abc")
  /\ caesar_cipher (U := latin1) (str_of "") 5 encode = OK (str_of "").
Proof. repeat split; vm_compute; (reflexivity || discriminate). Qed.

(** ** Instances of the conditional claims *)

Lemma nonalpha_passthrough_witness :
  exists r,
    caesar_cipher (U := latin1) (str_of "a1!") 3 encode = OK r
    /\ nth_error r 1 = Some 49.
Proof.
  apply (nonalpha_passthrough (U := latin1) (str_of "a1!") 3 encode 1 49);
    reflexivity.
Defined.

Lemma case_preserved_witness :
  exists r c',
    caesar_cipher (U := latin1) (str_of "aB") 3 decode = OK r
    /\ nth_error r 1 = Some c'
    /\ isalpha (U := latin1) c' = true
    /\ isupper (U := latin1) c' = true.
Proof.
  destruct (case_preserved (U := latin1) (str_of "aB") 3 decode 1 66)
    as (r & c' & R & N & A & Up & _); [reflexivity | reflexivity |].
  exists r, c'. repeat split; auto.
Defined.

Lemma direction_only_decode_witness :
  caesar_cipher (U := latin1) (str_of "Hi") 3 (str_of "DECODE")
  = caesar_cipher (U := latin1) (str_of "Hi") 3 encode
  /\ caesar_cipher (U := latin1) (str_of "Hi") 3 decode
     = caesar_cipher (U := latin1) (str_of "Hi") (-3) encode.
Proof.
  apply (direction_only_decode (U := latin1) (str_of "Hi") 3 (str_of "DECODE")).
  vm_compute. discriminate.
Defined.

Lemma negative_shift_floor_modulo_witness :
  0 <= effective_shift (-2) encode < 26
  /\ (exists q, -2 = 26 * q + effective_shift (-2) encode)
  /\ effective_shift (-2) encode
     = Z.rem (-2) 26 + (if Z.rem (-2) 26 =? 0 then 0 else 26)
  /\ effective_shift (-2) encode = 24
  /\ caesar_cipher (U := latin1) (str_of "abc") (-2) encode
     = OK (str_of "yza").
Proof. apply (negative_shift_floor_modulo (-2)). lia. Defined.

(** ** Further properties of [caesar_cipher] *)

Section Rotation.
Context {U : UnicodeData}.

Lemma ascii_lettersb_sound (text : str) :
  ascii_lettersb text = true -> ascii_letters text.
Proof.
  unfold ascii_lettersb, ascii_letters. rewrite forallb_forall.
  intros H c I A. specialize (H c I). rewrite A in H. exact H.
Qed.

Lemma image_alpha (shift : Z) (c : char) :
  isalpha c = true ->
  image shift c = (if isupper c then 65 else 97) + new_index_of shift c.
Proof. intros A. unfold image. rewrite A. destruct (isupper c); reflexivity. Qed.

Lemma image_mod (shift : Z) (c : char) :
  image (shift mod 26) c = image shift c.
Proof. unfold image, new_index_of. rewrite Zplus_mod_idemp_r. reflexivity. Qed.

Lemma image_compose (s1 s2 : Z) (c : char) :
  image s2 (image s1 c) = image (s1 + s2) c.
Proof.
  destruct (isalpha c) eqn:A.
  - rewrite (image_alpha s1 c A), (image_alpha (s1 + s2) c A).
    pose proof (new_index_bounds s1 c) as B.
    assert (E : (new_index_of s1 c + s2) mod 26 = new_index_of (s1 + s2) c).
    { unfold new_index_of. rewrite Zplus_mod_idemp_l. f_equal. lia. }
    destruct (isupper c).
    + rewrite image_ascii_upper by lia. rewrite <- E. do 2 f_equal. lia.
    + rewrite image_ascii_lower by lia. rewrite <- E. do 2 f_equal. lia.
  - rewrite (image_not_alpha s1 c A), !image_not_alpha by exact A.
    reflexivity.
Qed.

Lemma image_zero (c : char) :
  (isalpha c = true -> is_ascii c = true) -> image 0 c = c.
Proof.
  intros H. destruct (isalpha c) eqn:A; [|apply image_not_alpha; exact A].
  apply isalpha_ascii in A; [|auto]. destruct A as [A|A].
  - rewrite image_ascii_upper, Z.add_0_r, Z.mod_small by lia. lia.
  - rewrite image_ascii_lower, Z.add_0_r, Z.mod_small by lia. lia.
Qed.

Lemma image_is_letter (shift : Z) (c : char) :
  isalpha c = true ->
  65 <= image shift c <= 90 \/ 97 <= image shift c <= 122.
Proof.
  intros A. rewrite (image_alpha shift c A).
  pose proof (new_index_bounds shift c). destruct (isupper c); lia.
Qed.

Lemma image_isalpha (shift : Z) (c : char) :
  isalpha (image shift c) = isalpha c.
Proof.
  destruct (isalpha c) eqn:A.
  - destruct (image_is_letter shift c A) as [H|H].
    + apply (uppercase_letter _ H).
    + apply (lowercase_letter _ H).
  - rewrite image_not_alpha; exact A.
Qed.

Lemma image_ascii_letters (shift : Z) (text : str) :
  ascii_letters (map (image shift) text).
Proof.
  intros c' I A'. apply in_map_iff in I. destruct I as (c & <- & _).
  rewrite image_isalpha in A'.
  destruct (image_is_letter shift c A') as [H|H];
    apply in_range_intro; lia.
Qed.

(** The shift applied in either direction, and its opposite, cancel
    modulo 26. *)
Lemma image_cancel (s s' : Z) (c : char) :
  (s + s') mod 26 = 0 ->
  (isalpha c = true -> is_ascii c = true) ->
  image s' (image s c) = c.
Proof.
  intros E H. rewrite image_compose, <- image_mod, E. apply image_zero, H.
Qed.

Lemma map_image_cancel (s s' : Z) (text : str) :
  (s + s') mod 26 = 0 -> ascii_letters text ->
  map (image s') (map (image s) text) = text.
Proof.
  intros E A. rewrite map_map. rewrite <- (map_id text) at 2.
  apply map_ext_in. intros c I. apply image_cancel; [exact E | exact (A c I)].
Qed.

Lemma encode_decode_cancel (k : Z) :
  (effective_shift k encode + effective_shift k decode) mod 26 = 0
  /\ (effective_shift k decode + effective_shift k encode) mod 26 = 0.
Proof.
  rewrite effective_shift_encode, effective_shift_decode.
  split; [replace (k mod 26 + k mod 26 * -1) with 0 by lia
         | replace (k mod 26 * -1 + k mod 26) with 0 by lia]; reflexivity.
Qed.

Lemma effective_shift_turns (k n : Z) (direction : str) :
  effective_shift (k + 26 * n) direction = effective_shift k direction.
Proof.
  unfold effective_shift.
  replace (k + 26 * n) with (k + n * 26) by lia.
  rewrite Z_mod_plus_full. reflexivity.
Qed.

(** X1 (round trip, both ways): on a text whose letters are all ASCII
    letters, decoding the encoded text with the same shift gives the text
    back, and so does encoding the decoded text. *)
Theorem roundtrip_both_ways (T : str) (k : Z) :
  ascii_letters T ->
  (exists e, caesar_cipher T k encode = OK e
             /\ caesar_cipher e k decode = OK T)
  /\ (exists d, caesar_cipher T k decode = OK d
                /\ caesar_cipher d k encode = OK T).
Proof.
  intros A. destruct (encode_decode_cancel k) as [E1 E2].
  split; eexists; (split; [apply caesar_cipher_image|]);
    rewrite caesar_cipher_image; f_equal; apply map_image_cancel; assumption.
Qed.

(** X2 (shifts add up): encoding with shift k1 and encoding the result
    with shift k2 is encoding once with shift k1 + k2, for every text. *)
Theorem shifts_compose (T : str) (k1 k2 : Z) :
  exists r,
    caesar_cipher T k1 encode = OK r
    /\ caesar_cipher r k2 encode = caesar_cipher T (k1 + k2) encode.
Proof.
  eexists. split; [apply caesar_cipher_image|].
  rewrite !caesar_cipher_image, map_map. f_equal. apply map_ext. intros c.
  rewrite !effective_shift_encode, image_compose.
  rewrite <- image_mod, <- Zplus_mod. reflexivity.
Qed.

(** X3 (whole turns): adding any multiple of 26 to the shift changes
    nothing, in either direction. *)
Theorem whole_turns_ignored (T : str) (k n : Z) (direction : str) :
  caesar_cipher T (k + 26 * n) direction = caesar_cipher T k direction.
Proof. unfold caesar_cipher. rewrite effective_shift_turns. reflexivity. Qed.

(** X4 (lowercase letters): a lowercase ASCII letter at some position is
    replaced, at that position, by the letter k places further on in
    a..z when encoding and k places back when decoding, wrapping around. *)
Theorem lowercase_letter_shifted (T : str) (k : Z) (i : nat) (c : char) :
  nth_error T i = Some c -> 97 <= c <= 122 ->
  exists e d,
    caesar_cipher T k encode = OK e
    /\ nth_error e i = Some (97 + (c - 97 + k) mod 26)
    /\ caesar_cipher T k decode = OK d
    /\ nth_error d i = Some (97 + (c - 97 - k) mod 26).
Proof.
  intros N L. do 2 eexists.
  split; [apply caesar_cipher_image|].
  split; [|split; [apply caesar_cipher_image|]];
    rewrite nth_error_map, N; cbn [option_map]; do 2 f_equal;
    rewrite image_ascii_lower by exact L; f_equal.
  - rewrite effective_shift_encode. apply Zplus_mod_idemp_r.
  - rewrite effective_shift_decode.
    replace (c - 97 + k mod 26 * -1) with (c - 97 - k mod 26) by lia.
    apply Zminus_mod_idemp_r.
Qed.

(** X5 (uppercase letters): the same rotation within A..Z for an uppercase
    ASCII letter. *)
Theorem uppercase_letter_shifted (T : str) (k : Z) (i : nat) (c : char) :
  nth_error T i = Some c -> 65 <= c <= 90 ->
  exists e d,
    caesar_cipher T k encode = OK e
    /\ nth_error e i = Some (65 + (c - 65 + k) mod 26)
    /\ caesar_cipher T k decode = OK d
    /\ nth_error d i = Some (65 + (c - 65 - k) mod 26).
Proof.
  intros N L. do 2 eexists.
  split; [apply caesar_cipher_image|].
  split; [|split; [apply caesar_cipher_image|]];
    rewrite nth_error_map, N; cbn [option_map]; do 2 f_equal;
    rewrite image_ascii_upper by exact L; f_equal.
  - rewrite effective_shift_encode. apply Zplus_mod_idemp_r.
  - rewrite effective_shift_decode.
    replace (c - 65 + k mod 26 * -1) with (c - 65 - k mod 26) by lia.
    apply Zminus_mod_idemp_r.
Qed.
End Rotation.

Section Structure.
Context {U : UnicodeData}.

(** X6 (letters outside a..z): an alphabetic character whose lowercase
    form [find] does not locate in the alphabet is replaced by the letter at
    index (shift - 1) mod 26, whatever the character was; only its being
    uppercase or not survives. *)
Theorem letter_outside_alphabet
  (T : str) (k : Z) (direction : str) (i : nat) (c : char) :
  nth_error T i = Some c -> isalpha c = true ->
  find ascii_lowercase (lower c) = -1 ->
  exists r,
    caesar_cipher T k direction = OK r
    /\ nth_error r i
       = Some ((if isupper c then 65 else 97)
               + (effective_shift k direction - 1) mod 26).
Proof.
  intros N A F. eexists. split; [apply caesar_cipher_image|].
  rewrite nth_error_map, N. cbn [option_map].
  rewrite image_not_in_alphabet by assumption. reflexivity.
Qed.

(** X7 (outputs are in the reversible domain): every letter of an output
    is an ASCII letter, whatever the input was, so every output survives
    encoding and decoding with any shift. *)
Theorem output_letters_ascii (T : str) (k : Z) (direction : str) :
  exists r,
    caesar_cipher T k direction = OK r
    /\ ascii_letters r
    /\ forall k', exists e,
         caesar_cipher r k' encode = OK e
         /\ caesar_cipher e k' decode = OK r.
Proof.
  eexists. split; [apply caesar_cipher_image|].
  split; [apply image_ascii_letters|].
  intros k'. eexists. split; [apply caesar_cipher_image|].
  rewrite caesar_cipher_image. f_equal.
  apply map_image_cancel;
    [apply encode_decode_cancel | apply image_ascii_letters].
Qed.

(** X8 (no collisions): two texts whose letters are all ASCII letters and
    that give the same output for one shift and direction are equal. *)
Theorem cipher_injective (T1 T2 : str) (k : Z) (direction : str) :
  ascii_letters T1 -> ascii_letters T2 ->
  caesar_cipher T1 k direction = caesar_cipher T2 k direction ->
  T1 = T2.
Proof.
  intros A1 A2 E. rewrite !caesar_cipher_image in E.
  injection E as E.
  set (s := effective_shift k direction) in *.
  assert (C : (s + - s) mod 26 = 0)
    by (replace (s + - s) with 0 by lia; reflexivity).
  rewrite <- (map_image_cancel s (- s) T1 C A1).
  rewrite <- (map_image_cancel s (- s) T2 C A2).
  rewrite E. reflexivity.
Qed.

(** X9 (concatenation): the output for T1 followed by T2 is the output
    for T1 followed by the output for T2. *)
Theorem cipher_app (T1 T2 : str) (k : Z) (direction : str) :
  exists r1 r2,
    caesar_cipher T1 k direction = OK r1
    /\ caesar_cipher T2 k direction = OK r2
    /\ caesar_cipher (T1 ++ T2) k direction = OK (r1 ++ r2).
Proof.
  do 2 eexists. repeat split; try apply caesar_cipher_image.
  rewrite caesar_cipher_image, map_app. reflexivity.
Qed.

(** X10 (letters stay letters): the character at a position of the output
    is alphabetic exactly when the character at that position of the
    input is. *)
Theorem letter_positions_preserved
  (T : str) (k : Z) (direction : str) (i : nat) (c : char) :
  nth_error T i = Some c ->
  exists r c',
    caesar_cipher T k direction = OK r
    /\ nth_error r i = Some c'
    /\ isalpha c' = isalpha c.
Proof.
  intros N. do 2 eexists. split; [apply caesar_cipher_image|].
  split; [rewrite nth_error_map, N; reflexivity|].
  apply image_isalpha.
Qed.

(** X11 (whole turns are the identity): with a shift that is a multiple
    of 26, and so with shift 0, a text whose letters are all ASCII letters
    is returned unchanged in either direction. *)
Theorem whole_turn_identity (T : str) (n : Z) (direction : str) :
  ascii_letters T -> caesar_cipher T (26 * n) direction = OK T.
Proof.
  intros A. rewrite caesar_cipher_image. f_equal.
  replace (26 * n) with (0 + 26 * n) by lia.
  rewrite effective_shift_turns.
  assert (E : effective_shift 0 direction = 0).
  { unfold effective_shift. destruct (str_eqb direction decode); reflexivity. }
  rewrite E. rewrite <- (map_id T) at 2. apply map_ext_in.
  intros c I. apply image_zero. exact (A c I).
Qed.
End Structure.

(** ** Instances of the conditional properties *)

Lemma roundtrip_both_ways_witness :
  (exists e,
      caesar_cipher (U := latin1) (str_of "Hello, World!") 3 encode = OK e
      /\ caesar_cipher (U := latin1) e 3 decode
         = OK (str_of "Hello, World!"))
  /\ (exists d,
        caesar_cipher (U := latin1) (str_of "Hello, World!") 3 decode = OK d
        /\ caesar_cipher (U := latin1) d 3 encode
           = OK (str_of "Hello, World!")).
Proof.
  apply (roundtrip_both_ways (U := latin1) (str_of "Hello, World!") 3).
  apply ascii_lettersb_sound. reflexivity.
Defined.

Lemma lowercase_letter_shifted_witness :
  exists e d,
    caesar_cipher (U := latin1) (str_of "xyz") 3 encode = OK e
    /\ nth_error e 1 = Some (97 + (121 - 97 + 3) mod 26)
    /\ caesar_cipher (U := latin1) (str_of "xyz") 3 decode = OK d
    /\ nth_error d 1 = Some (97 + (121 - 97 - 3) mod 26).
Proof.
  apply (lowercase_letter_shifted (U := latin1) (str_of "xyz") 3 1 121);
    [reflexivity | lia].
Defined.

Lemma uppercase_letter_shifted_witness :
  exists e d,
    caesar_cipher (U := latin1) (str_of "XYZ") 3 encode = OK e
    /\ nth_error e 1 = Some (65 + (89 - 65 + 3) mod 26)
    /\ caesar_cipher (U := latin1) (str_of "XYZ") 3 decode = OK d
    /\ nth_error d 1 = Some (65 + (89 - 65 - 3) mod 26).
Proof.
  apply (uppercase_letter_shifted (U := latin1) (str_of "XYZ") 3 1 89);
    [reflexivity | lia].
Defined.

Lemma letter_outside_alphabet_witness :
  exists r,
    caesar_cipher (U := latin1) [97; 201] 3 encode = OK r
    /\ nth_error r 1
       = Some ((if isupper (U := latin1) 201 then 65 else 97)
               + (effective_shift 3 encode - 1) mod 26).
Proof.
  apply (letter_outside_alphabet (U := latin1) [97; 201] 3 encode 1 201);
    reflexivity.
Defined.

Lemma cipher_injective_witness : str_of "abc" = str_of "abc".
Proof.
  apply (cipher_injective (U := latin1) (str_of "abc") (str_of "abc") 5 decode).
  - apply ascii_lettersb_sound. reflexivity.
  - apply ascii_lettersb_sound. reflexivity.
  - reflexivity.
Defined.

Lemma letter_positions_preserved_witness :
  exists r c',
    caesar_cipher (U := latin1) [233; 49] 3 encode = OK r
    /\ nth_error r 0 = Some c'
    /\ isalpha (U := latin1) c' = isalpha (U := latin1) 233.
Proof.
  apply (letter_positions_preserved (U := latin1) [233; 49] 3 encode 0 233).
  reflexivity.
Defined.

Lemma whole_turn_identity_witness :
  caesar_cipher (U := latin1) (str_of "Hello, World!") (26 * -2) decode
  = OK (str_of "Hello, World!").
Proof.
  apply (whole_turn_identity (U := latin1) (str_of "Hello, World!") (-2) decode).
  apply ascii_lettersb_sound. reflexivity.
Defined.

(** ** The interactive functions *)

Section ShiftPrompt.
Context {B : Builtins}.

Lemma get_valid_shift_accepts (fuel : nat) (line : str) (rest : list str)
  (out : str) (v : Z) :
  int_of_str line = Some v ->
  get_valid_shift (S fuel) (Console (line :: rest) out)
  = (Returns v, Console rest (out ++ shift_prompt)).
Proof.
  intros H. cbn [get_valid_shift].
  unfold try_except_ValueError, io_bind, input, int. cbn [stdin stdout].
  rewrite H. reflexivity.
Qed.

Lemma get_valid_shift_rejects (fuel : nat) (line : str) (rest : list str)
  (out : str) :
  int_of_str line = None ->
  get_valid_shift (S fuel) (Console (line :: rest) out)
  = get_valid_shift fuel
      (Console rest (out ++ shift_prompt ++ shift_invalid ++ nl)).
Proof.
  intros H. cbn [get_valid_shift].
  unfold try_except_ValueError, io_bind, input, int, print, raise.
  cbn [stdin stdout]. rewrite H. cbn [stdin stdout].
  rewrite <- app_assoc. reflexivity.
Qed.

Lemma get_valid_shift_eof (fuel : nat) (out : str) :
  get_valid_shift (S fuel) (Console [] out)
  = (Raises EOFError, Console [] (out ++ shift_prompt)).
Proof. reflexivity. Qed.

(** X12 ([get_valid_shift] retries): when the next lines of input are
    rejected by [int] and the line after them is accepted with value v, the
    call returns v, has read exactly those lines, and has written the
    prompt before each line and the error message after each rejected
    one. *)
Theorem get_valid_shift_skips (fuel : nat) (bad : list str) (good : str)
  (v : Z) (rest : list str) (out : str) :
  Forall (fun line => int_of_str line = None) bad ->
  int_of_str good = Some v ->
  (length bad < fuel)%nat ->
  get_valid_shift fuel (Console (bad ++ good :: rest) out)
  = (Returns v, Console rest (out ++ retries bad ++ shift_prompt)).
Proof.
  intros Bad Good. revert fuel out.
  induction Bad as [|line bad Hl _ IH]; intros fuel out F.
  - destruct fuel as [|fuel]; [inversion F|].
    apply get_valid_shift_accepts, Good.
  - destruct fuel as [|fuel]; [inversion F|]. cbn [length] in F.
    cbn [app]. rewrite get_valid_shift_rejects by exact Hl.
    rewrite IH by lia. cbn [retries flat_map].
    fold (retries bad). rewrite <- !app_assoc. reflexivity.
Qed.

(** X13 ([get_valid_shift] at the end of input): when every remaining line
    is rejected by [int], the call answers each with the error message and
    then ends in [EOFError]; the [ValueError] of [int] never leaves it. *)
Theorem get_valid_shift_exhausts (fuel : nat) (bad : list str) (out : str) :
  Forall (fun line => int_of_str line = None) bad ->
  (length bad < fuel)%nat ->
  get_valid_shift fuel (Console bad out)
  = (Raises EOFError, Console [] (out ++ retries bad ++ shift_prompt)).
Proof.
  intros Bad. revert fuel out.
  induction Bad as [|line bad Hl _ IH]; intros fuel out F.
  - destruct fuel as [|fuel]; [inversion F|]. apply get_valid_shift_eof.
  - destruct fuel as [|fuel]; [inversion F|]. cbn [length] in F.
    rewrite get_valid_shift_rejects by exact Hl.
    rewrite IH by lia. cbn [retries flat_map].
    fold (retries bad). rewrite <- !app_assoc. reflexivity.
Qed.

(** Every input is a run of rejected lines, followed or not by an
    accepted one. *)
Lemma shift_lines_split (lines : list str) :
  Forall (fun line => int_of_str line = None) lines
  \/ exists bad good v rest,
       lines = bad ++ good :: rest
       /\ Forall (fun line => int_of_str line = None) bad
       /\ int_of_str good = Some v.
Proof.
  induction lines as [|line lines IH].
  - left. constructor.
  - destruct (int_of_str line) as [v|] eqn:E.
    + right. exists [], line, v, lines. repeat split; [constructor | exact E].
    + destruct IH as [IH|(bad & good & v & rest & -> & Bad & Good)].
      * left. constructor; assumption.
      * right. exists (line :: bad), good, v, rest.
        repeat split; [constructor; assumption | exact Good].
Qed.

(** With fuel for every line, the call either returns having read at
    least one line, or meets the end of the input. *)
Lemma get_valid_shift_outcome (fuel : nat) (w : console) :
  (length (stdin w) < fuel)%nat ->
  (exists v w',
      get_valid_shift fuel w = (Returns v, w')
      /\ (length (stdin w') < length (stdin w))%nat)
  \/ (exists w',
        get_valid_shift fuel w = (Raises EOFError, w') /\ stdin w' = []).
Proof.
  destruct w as [lines out]. cbn [stdin]. intros F.
  destruct (shift_lines_split lines)
    as [Bad|(bad & good & v & rest & -> & Bad & Good)].
  - right. eexists. split; [apply get_valid_shift_exhausts; assumption|].
    reflexivity.
  - left. rewrite length_app in F. cbn [length] in F.
    exists v. eexists. split; [apply get_valid_shift_skips; try assumption; lia|].
    cbn [stdin]. rewrite length_app. cbn [length]. lia.
Qed.
End ShiftPrompt.

Section Messages.
Context {U : UnicodeData} {B : Builtins}.

(** [encode_message] once the message is read: what is left is the shift
    prompt and the two result lines. *)
Lemma encode_message_reads (fuel : nat) (m : str) (lines : list str)
  (out : str) :
  encode_message fuel (Console (m :: lines) out)
  = match get_valid_shift fuel
            (Console lines (out ++ encode_banner ++ nl ++ encode_prompt)) with
    | (Returns v, w) =>
        (Returns tt,
         Console (stdin w)
           (stdout w ++ encode_result ++ nl ++ arrow
            ++ map (image (effective_shift v encode)) m ++ nl))
    | (Raises e, w) => (Raises e, w)
    | (Starved, w) => (Starved, w)
    end.
Proof.
  unfold encode_message, io_bind at 1 2, print at 1, input.
  cbn [stdin stdout]. unfold io_bind at 1. rewrite <- !app_assoc.
  destruct (get_valid_shift fuel _) as [[v|e|] w]; try reflexivity.
  rewrite caesar_cipher_image. unfold lift, ret, io_bind, print.
  cbn [stdin stdout]. rewrite <- !app_assoc. reflexivity.
Qed.

Lemma decode_message_reads (fuel : nat) (m : str) (lines : list str)
  (out : str) :
  decode_message fuel (Console (m :: lines) out)
  = match get_valid_shift fuel
            (Console lines (out ++ decode_banner ++ nl ++ decode_prompt)) with
    | (Returns v, w) =>
        (Returns tt,
         Console (stdin w)
           (stdout w ++ decode_result ++ nl ++ arrow
            ++ map (image (effective_shift v decode)) m ++ nl))
    | (Raises e, w) => (Raises e, w)
    | (Starved, w) => (Starved, w)
    end.
Proof.
  unfold decode_message, io_bind at 1 2, print at 1, input.
  cbn [stdin stdout]. unfold io_bind at 1. rewrite <- !app_assoc.
  destruct (get_valid_shift fuel _) as [[v|e|] w]; try reflexivity.
  rewrite caesar_cipher_image. unfold lift, ret, io_bind, print.
  cbn [stdin stdout]. rewrite <- !app_assoc. reflexivity.
Qed.

Lemma encode_message_run (fuel : nat) (m : str) (bad : list str)
  (good : str) (v : Z) (rest : list str) (out : str) :
  Forall (fun line => int_of_str line = None) bad ->
  int_of_str good = Some v ->
  (length bad < fuel)%nat ->
  encode_message fuel (Console (m :: bad ++ good :: rest) out)
  = (Returns tt,
     Console rest
       (out ++ encode_transcript bad ++ arrow
        ++ map (image (effective_shift v encode)) m ++ nl)).
Proof.
  intros Bad Good F. rewrite encode_message_reads.
  rewrite (get_valid_shift_skips fuel bad good v rest _ Bad Good F).
  cbn [stdin stdout]. unfold encode_transcript.
  rewrite <- !app_assoc. reflexivity.
Qed.

Lemma decode_message_run (fuel : nat) (m : str) (bad : list str)
  (good : str) (v : Z) (rest : list str) (out : str) :
  Forall (fun line => int_of_str line = None) bad ->
  int_of_str good = Some v ->
  (length bad < fuel)%nat ->
  decode_message fuel (Console (m :: bad ++ good :: rest) out)
  = (Returns tt,
     Console rest
       (out ++ decode_transcript bad ++ arrow
        ++ map (image (effective_shift v decode)) m ++ nl)).
Proof.
  intros Bad Good F. rewrite decode_message_reads.
  rewrite (get_valid_shift_skips fuel bad good v rest _ Bad Good F).
  cbn [stdin stdout]. unfold decode_transcript.
  rewrite <- !app_assoc. reflexivity.
Qed.

Lemma encode_message_outcome (fuel : nat) (w : console) :
  (length (stdin w) <= fuel)%nat ->
  (exists w',
      encode_message fuel w = (Returns tt, w')
      /\ (length (stdin w') < length (stdin w))%nat)
  \/ (exists w',
        encode_message fuel w = (Raises EOFError, w') /\ stdin w' = []).
Proof.
  destruct w as [[|m lines] out]; cbn [stdin length]; intros F.
  - right. eexists. split; reflexivity.
  - rewrite encode_message_reads.
    match goal with
    | |- context [get_valid_shift fuel ?w0] =>
        destruct (get_valid_shift_outcome fuel w0)
          as [(v & w1 & -> & L)|(w1 & -> & E)]; [cbn [stdin]; lia | |]
    end.
    + left. eexists. split; [reflexivity|]. cbn [stdin] in *. lia.
    + right. eexists. split; [reflexivity | exact E].
Qed.

Lemma decode_message_outcome (fuel : nat) (w : console) :
  (length (stdin w) <= fuel)%nat ->
  (exists w',
      decode_message fuel w = (Returns tt, w')
      /\ (length (stdin w') < length (stdin w))%nat)
  \/ (exists w',
        decode_message fuel w = (Raises EOFError, w') /\ stdin w' = []).
Proof.
  destruct w as [[|m lines] out]; cbn [stdin length]; intros F.
  - right. eexists. split; reflexivity.
  - rewrite decode_message_reads.
    match goal with
    | |- context [get_valid_shift fuel ?w0] =>
        destruct (get_valid_shift_outcome fuel w0)
          as [(v & w1 & -> & L)|(w1 & -> & E)]; [cbn [stdin]; lia | |]
    end.
    + left. eexists. split; [reflexivity|]. cbn [stdin] in *. lia.
    + right. eexists. split; [reflexivity | exact E].
Qed.
End Messages.

Section Sessions.
Context {U : UnicodeData} {B : Builtins}.

(** X14 (a session round trip): when [encode_message] reads a message
    whose letters are all ASCII letters and a shift, the text it writes
    after the arrow, given to [decode_message] with a shift line of the
    same value, makes [decode_message] write the message after its arrow.
    Each call reads its message, the rejected shift lines and the accepted
    one, and leaves the rest of the input unread. *)
Theorem session_roundtrip
  (m : str) (k : Z) (bad bad' : list str) (ks ks' : str)
  (rest rest' : list str) (out out' : str) (fuel fuel' : nat) :
  ascii_letters m ->
  Forall (fun line => int_of_str line = None) bad ->
  Forall (fun line => int_of_str line = None) bad' ->
  int_of_str ks = Some k -> int_of_str ks' = Some k ->
  (length bad < fuel)%nat -> (length bad' < fuel')%nat ->
  exists e,
    encode_message fuel (Console (m :: bad ++ ks :: rest) out)
    = (Returns tt,
       Console rest (out ++ encode_transcript bad ++ arrow ++ e ++ nl))
    /\ decode_message fuel' (Console (e :: bad' ++ ks' :: rest') out')
       = (Returns tt,
          Console rest' (out' ++ decode_transcript bad' ++ arrow ++ m ++ nl)).
Proof.
  intros A Bad Bad' K K' F F'. eexists. split.
  - apply encode_message_run; eassumption.
  - rewrite (decode_message_run fuel' _ bad' ks' k rest' out' Bad' K' F').
    rewrite map_image_cancel;
      [reflexivity | apply encode_decode_cancel | exact A].
Qed.

(** One turn of the menu loop on a line of input. *)
Lemma main_loop_turn (fuel : nat) (line : str) (lines : list str)
  (out : str) :
  main_loop (S fuel) (Console (line :: lines) out)
  = (if str_eqb (lower_of_str line) (str_of "encode") then
       encode_message fuel ;;; main_loop fuel
     else if str_eqb (lower_of_str line) (str_of "decode") then
       decode_message fuel ;;; main_loop fuel
     else if str_eqb (lower_of_str line) (str_of "exit") then
       print goodbye
     else
       print invalid_choice ;;; main_loop fuel)
      (Console lines (out ++ menu)).
Proof.
  cbn [main_loop]. unfold io_bind at 1 2, print at 1, input, menu.
  cbn [stdin stdout]. rewrite <- !app_assoc. reflexivity.
Qed.

Lemma main_loop_ends (fuel : nat) (w : console) :
  (length (stdin w) < fuel)%nat -> ends_well (main_loop fuel w).
Proof.
  revert w. induction fuel as [|fuel IH]; intros w F; [inversion F|].
  destruct w as [[|line lines] out]; cbn [stdin length] in F.
  - right. eexists. split; reflexivity.
  - rewrite main_loop_turn.
    destruct (str_eqb (lower_of_str line) (str_of "encode")).
    { unfold io_bind.
      match goal with
      | |- context [encode_message fuel ?w0] =>
          destruct (encode_message_outcome fuel w0)
            as [(w1 & -> & L)|(w1 & -> & E)]; [cbn [stdin]; lia | |]
      end.
      - apply IH. cbn [stdin] in L. lia.
      - right. eexists. split; [reflexivity | exact E]. }
    destruct (str_eqb (lower_of_str line) (str_of "decode")).
    { unfold io_bind.
      match goal with
      | |- context [decode_message fuel ?w0] =>
          destruct (decode_message_outcome fuel w0)
            as [(w1 & -> & L)|(w1 & -> & E)]; [cbn [stdin]; lia | |]
      end.
      - apply IH. cbn [stdin] in L. lia.
      - right. eexists. split; [reflexivity | exact E]. }
    destruct (str_eqb (lower_of_str line) (str_of "exit")).
    { left. eexists. split; [reflexivity|]. cbn [stdout].
      eexists. reflexivity. }
    unfold io_bind, print. cbn [stdin stdout]. apply IH. cbn [stdin]. lia.
Qed.

Lemma main_starts (fuel : nat) (w : console) :
  main fuel w = main_loop fuel (Console (stdin w) (stdout w ++ title)).
Proof.
  unfold main, io_bind, print, title. cbn [stdin stdout].
  rewrite <- !app_assoc. reflexivity.
Qed.

(** X15 ([main] ends well): on any input, with fuel for every line, [main]
    either returns, the last thing written being the farewell, or raises
    [EOFError] with all the input read.  No [ValueError] or [IndexError]
    leaves it. *)
Theorem main_ends (fuel : nat) (w : console) :
  (length (stdin w) < fuel)%nat -> ends_well (main fuel w).
Proof. intros F. rewrite main_starts. apply main_loop_ends. exact F. Qed.

Lemma main_loop_refuses (fuel : nat) (line : str) (lines : list str)
  (out : str) :
  unknown_choice line ->
  main_loop (S fuel) (Console (line :: lines) out)
  = main_loop fuel (Console lines (out ++ menu ++ invalid_choice ++ nl)).
Proof.
  intros (N1 & N2 & N3). rewrite main_loop_turn.
  rewrite (str_eqb_neq _ _ N1), (str_eqb_neq _ _ N2), (str_eqb_neq _ _ N3).
  unfold io_bind, print. cbn [stdin stdout].
  rewrite <- !app_assoc. reflexivity.
Qed.

Lemma main_loop_exits (fuel : nat) (line : str) (lines : list str)
  (out : str) :
  lower_of_str line = str_of "exit" ->
  main_loop (S fuel) (Console (line :: lines) out)
  = (Returns tt, Console lines (out ++ menu ++ goodbye ++ nl)).
Proof.
  intros E. rewrite main_loop_turn, E.
  change (str_eqb (str_of "exit") (str_of "encode")) with false.
  change (str_eqb (str_of "exit") (str_of "decode")) with false.
  change (str_eqb (str_of "exit") (str_of "exit")) with true.
  unfold print. cbn [stdin stdout]. rewrite <- !app_assoc. reflexivity.
Qed.

(** X16 (the menu skips what it does not know): when the input starts
    with lines that are none of the three commands in any letter case and
    then has a line that is 'exit' in some letter case, [main] answers each
    of the former with the refusal, says farewell at the latter, returns,
    and leaves the lines after it unread. *)
Theorem main_skips_to_exit (fuel : nat) (junk : list str) (ex : str)
  (rest : list str) (out : str) :
  Forall unknown_choice junk ->
  lower_of_str ex = str_of "exit" ->
  (length junk < fuel)%nat ->
  main fuel (Console (junk ++ ex :: rest) out)
  = (Returns tt,
     Console rest (out ++ title ++ refusals junk ++ menu ++ goodbye ++ nl)).
Proof.
  intros J E F. rewrite main_starts. cbn [stdin stdout].
  rewrite (app_assoc out title). generalize (out ++ title) as o.
  revert fuel F. induction J as [|line junk Hl _ IH]; intros fuel F o.
  - destruct fuel as [|fuel]; [inversion F|].
    apply main_loop_exits, E.
  - destruct fuel as [|fuel]; [inversion F|]. cbn [length] in F.
    cbn [app]. rewrite main_loop_refuses by exact Hl.
    rewrite IH by lia. cbn [refusals flat_map]. fold (refusals junk).
    rewrite <- !app_assoc. reflexivity.
Qed.
End Sessions.

Section Menu.
Context {U : UnicodeData} {B : Builtins}.

Lemma main_loop_encodes (fuel : nat) (cmd m ks : str) (k : Z)
  (lines : list str) (out : str) :
  lower_of_str cmd = str_of "encode" -> int_of_str ks = Some k ->
  main_loop (S (S fuel)) (Console (cmd :: m :: ks :: lines) out)
  = main_loop (S fuel)
      (Console lines
         (out ++ menu ++ encode_transcript [] ++ arrow
          ++ map (image (effective_shift k encode)) m ++ nl)).
Proof.
  intros E K. rewrite main_loop_turn, E.
  change (str_eqb (str_of "encode") (str_of "encode")) with true.
  cbv iota. unfold io_bind at 1.
  rewrite (encode_message_run (S fuel) m [] ks k lines _ (Forall_nil _) K)
    by (cbn [length]; lia).
  rewrite <- !app_assoc. reflexivity.
Qed.

Lemma main_loop_decodes (fuel : nat) (cmd m ks : str) (k : Z)
  (lines : list str) (out : str) :
  lower_of_str cmd = str_of "decode" -> int_of_str ks = Some k ->
  main_loop (S (S fuel)) (Console (cmd :: m :: ks :: lines) out)
  = main_loop (S fuel)
      (Console lines
         (out ++ menu ++ decode_transcript [] ++ arrow
          ++ map (image (effective_shift k decode)) m ++ nl)).
Proof.
  intros E K. rewrite main_loop_turn, E.
  change (str_eqb (str_of "decode") (str_of "encode")) with false.
  change (str_eqb (str_of "decode") (str_of "decode")) with true.
  cbv iota. unfold io_bind at 1.
  rewrite (decode_message_run (S fuel) m [] ks k lines _ (Forall_nil _) K)
    by (cbn [length]; lia).
  rewrite <- !app_assoc. reflexivity.
Qed.

(** X17 (a whole session): when the input is a line that is 'encode' in
    some letter case, a message, a line that [int] accepts with value k and
    a line that is 'exit' in some letter case, [main] writes the title, the
    menu, the encoding dialogue with the output of [caesar_cipher] for the
    message and k after the arrow, the menu again and the farewell, and
    returns with the rest of the input unread.  The same holds with
    'decode' for the decoding dialogue. *)
Theorem main_session (fuel : nat) (cmd m ks ex : str) (k : Z)
  (rest : list str) (out : str) :
  int_of_str ks = Some k ->
  lower_of_str ex = str_of "exit" ->
  (1 < fuel)%nat ->
  (lower_of_str cmd = str_of "encode" ->
   exists e,
     caesar_cipher m k encode = OK e
     /\ main fuel (Console (cmd :: m :: ks :: ex :: rest) out)
        = (Returns tt,
           Console rest
             (out ++ title ++ menu ++ encode_transcript [] ++ arrow ++ e ++ nl
              ++ menu ++ goodbye ++ nl)))
  /\ (lower_of_str cmd = str_of "decode" ->
      exists d,
        caesar_cipher m k decode = OK d
        /\ main fuel (Console (cmd :: m :: ks :: ex :: rest) out)
           = (Returns tt,
              Console rest
                (out ++ title ++ menu ++ decode_transcript [] ++ arrow
                 ++ d ++ nl ++ menu ++ goodbye ++ nl))).
Proof.
  intros K E F. destruct fuel as [|[|fuel]]; try lia.
  split; intros C; eexists; (split; [apply caesar_cipher_image|]);
    rewrite main_starts; cbn [stdin stdout].
  - rewrite (main_loop_encodes fuel cmd m ks k _ _ C K).
    rewrite (main_loop_exits fuel ex rest _ E).
    rewrite <- !app_assoc. reflexivity.
  - rewrite (main_loop_decodes fuel cmd m ks k _ _ C K).
    rewrite (main_loop_exits fuel ex rest _ E).
    rewrite <- !app_assoc. reflexivity.
Qed.
End Menu.

(** ** Instances of the conditional properties of the console functions *)

Lemma get_valid_shift_skips_witness :
  get_valid_shift (B := latin1_builtins) 3
    (Console ([str_of "three"; str_of "3.0"] ++ str_of " +3 " :: [str_of "exit"])
       [])
  = (Returns 3,
     Console [str_of "exit"]
       ([] ++ retries [str_of "three"; str_of "3.0"] ++ shift_prompt)).
Proof.
  apply (get_valid_shift_skips (B := latin1_builtins) 3
           [str_of "three"; str_of "3.0"] (str_of " +3 ") 3 [str_of "exit"] []).
  - repeat constructor.
  - reflexivity.
  - cbn [length]. lia.
Defined.

Lemma get_valid_shift_exhausts_witness :
  get_valid_shift (B := latin1_builtins) 3
    (Console [str_of "three"; str_of "1__0"] [])
  = (Raises EOFError,
     Console [] ([] ++ retries [str_of "three"; str_of "1__0"] ++ shift_prompt)).
Proof.
  apply (get_valid_shift_exhausts (B := latin1_builtins) 3
           [str_of "three"; str_of "1__0"] []).
  - repeat constructor.
  - cbn [length]. lia.
Defined.

Lemma session_roundtrip_witness :
  exists e,
    encode_message (U := latin1) (B := latin1_builtins) 2
      (Console (str_of "Hello, World!" :: [str_of "x"] ++ str_of "3" :: []) [])
    = (Returns tt,
       Console [] ([] ++ encode_transcript [str_of "x"] ++ arrow ++ e ++ nl))
    /\ decode_message (U := latin1) (B := latin1_builtins) 1
         (Console (e :: [] ++ str_of " +3" :: [str_of "exit"]) [])
       = (Returns tt,
          Console [str_of "exit"]
            ([] ++ decode_transcript [] ++ arrow ++ str_of "Hello, World!"
             ++ nl)).
Proof.
  apply (session_roundtrip (U := latin1) (B := latin1_builtins)
           (str_of "Hello, World!") 3 [str_of "x"] [] (str_of "3")
           (str_of " +3") [] [str_of "exit"] [] [] 2 1).
  - apply ascii_lettersb_sound. reflexivity.
  - repeat constructor.
  - constructor.
  - reflexivity.
  - reflexivity.
  - cbn [length]. lia.
  - cbn [length]. lia.
Defined.

Lemma main_ends_witness :
  ends_well
    (main (U := latin1) (B := latin1_builtins) 4
       (Console [str_of "Encode"; str_of "abc"; str_of "1"] [])).
Proof.
  apply (main_ends (U := latin1) (B := latin1_builtins) 4
           (Console [str_of "Encode"; str_of "abc"; str_of "1"] [])).
  cbn [stdin length]. lia.
Defined.

Lemma main_skips_to_exit_witness :
  main (U := latin1) (B := latin1_builtins) 3
    (Console ([str_of "help"; str_of ""] ++ str_of "EXIT" :: [str_of "encode"])
       [])
  = (Returns tt,
     Console [str_of "encode"]
       ([] ++ title ++ refusals [str_of "help"; str_of ""] ++ menu ++ goodbye
        ++ nl)).
Proof.
  apply (main_skips_to_exit (U := latin1) (B := latin1_builtins) 3
           [str_of "help"; str_of ""] (str_of "EXIT") [str_of "encode"] []).
  - repeat constructor; vm_compute; discriminate.
  - reflexivity.
  - cbn [length]. lia.
Defined.

Lemma main_session_witness :
  exists e,
    caesar_cipher (U := latin1) (str_of "Hello, World!") 3 encode = OK e
    /\ main (U := latin1) (B := latin1_builtins) 2
         (Console
            (str_of "Encode" :: str_of "Hello, World!" :: str_of "3"
             :: str_of "exit" :: [str_of "unread"]) [])
       = (Returns tt,
          Console [str_of "unread"]
            ([] ++ title ++ menu ++ encode_transcript [] ++ arrow ++ e ++ nl
             ++ menu ++ goodbye ++ nl)).
Proof.
  apply (main_session (U := latin1) (B := latin1_builtins) 2
           (str_of "Encode") (str_of "Hello, World!") (str_of "3")
           (str_of "exit") 3 [str_of "unread"] []); try reflexivity.
  lia.
Defined.
